(** * tec::FilePath — a shallow embedding of [common/filesystem.hpp]

    The header defines the class [tec::FilePath]: one private field
    [std::string path], four process-wide cached strings, the inline
    assignment, concatenation ([+=], [+]) and append ([/=], [/]) operators and
    the two stream operators.  The out-of-line members ([NormalizePath], the
    constructors, the resolver functions, [toGenericString]) are only declared
    there; where a property needs one of them it is modelled from the
    specification and marked as such. *)

From Stdlib Require Import List Ascii String Bool Arith Lia.
Import ListNotations.

Local Open Scope char_scope.
Local Open Scope list_scope.

(** ** Strings and the host platform *)

(** [std::string]: a sequence of bytes. *)
Definition std_string : Type := list ascii.

(** String literals of the C++ text, as byte sequences. *)
Definition lit (s : string) : std_string := list_ascii_of_string s.

(** The header is compiled either with [WIN32] defined or without it. *)
Inductive Host : Type :=
| Posix
| Win32.

(** [s.empty()], [s.front()] and [s.back()].  The C++ accessors are undefined
    on an empty string; the operators below only call them behind an
    emptiness test, so [None] is never consumed. *)
Definition str_empty (s : std_string) : bool :=
  match s with
  | [] => true
  | _ :: _ => false
  end.

Definition front (s : std_string) : option ascii :=
  match s with
  | [] => None
  | c :: _ => Some c
  end.

Fixpoint back (s : std_string) : option ascii :=
  match s with
  | [] => None
  | [c] => Some c
  | _ :: t => back t
  end.

(** [x != PATH_SEPARATOR_C] on an accessor result. *)
Definition differs (o : option ascii) (c : ascii) : bool :=
  match o with
  | Some x => negb (Ascii.eqb x c)
  | None => true
  end.

(** [std::replace(s.begin(), s.end(), old, new)]. *)
Definition replace (old new : ascii) (s : std_string) : std_string :=
  map (fun c => if Ascii.eqb c old then new else c) s.

Module FilePath.

(** [const static char PATH_SEPARATOR_C]: a backslash under [WIN32], a
    slash otherwise. *)
Definition PATH_SEPARATOR_C (h : Host) : ascii :=
  match h with
  | Win32 => "\"
  | Posix => "/"
  end.

(** Modelled from the spec: [const static std::string PATH_SEPARATOR] is
    declared in the header and defined out of line; it is the native
    separator as a one-character string. *)
Definition PATH_SEPARATOR (h : Host) : std_string := [PATH_SEPARATOR_C h].

(** The separator the host does not use. *)
Definition FOREIGN_SEPARATOR_C (h : Host) : ascii :=
  match h with
  | Win32 => "/"
  | Posix => "\"
  end.

(** The class has one data member, [std::string path]. *)
Record t : Type := mk { path : std_string }.

(** Modelled from the spec: a letter of a drive prefix [<letter>:]. *)
Definition is_letter (c : ascii) : bool :=
  let n := nat_of_ascii c in
  (((65 <=? n) && (n <=? 90)) || ((97 <=? n) && (n <=? 122)))%nat.

Definition has_drive_prefix (s : std_string) : bool :=
  match s with
  | a :: b :: _ => is_letter a && Ascii.eqb b ":"
  | _ => false
  end.

Definition strip_drive (s : std_string) : std_string :=
  if has_drive_prefix s then skipn 2 s else s.

(** Modelled from the spec: [void NormalizePath()] is declared in the
    header ("Convert slashes to the correct OS slash; remove drive unit if
    is a *NIX OS") and defined out of line.  Step 1 rewrites every foreign
    separator to the native one; step 2, on a host without drive letters,
    strips one leading two-character prefix [<letter>:]; consecutive
    separators are left as they are. *)
Definition normalize (h : Host) (s : std_string) : std_string :=
  let s1 := replace (FOREIGN_SEPARATOR_C h) (PATH_SEPARATOR_C h) s in
  match h with
  | Win32 => s1
  | Posix => strip_drive s1
  end.

Definition NormalizePath (h : Host) (this : t) : t :=
  mk (normalize h (path this)).

(** Modelled from the spec: [explicit FilePath()] builds the empty path. *)
Definition empty_path : t := mk [].

(** [other.substr(pos, count)], total: a start past the end gives the empty
    slice, [None] stands for [npos]. *)
Definition slice (s : std_string) (pos : nat) (count : option nat) : std_string :=
  match count with
  | None => skipn pos s
  | Some n => firstn n (skipn pos s)
  end.

(** Modelled from the spec: [FilePath(const std::string&, pos, count)] is
    defined out of line; it takes the slice and immediately normalizes. *)
Definition of_substring (h : Host) (s : std_string) (pos : nat) (count : option nat) : t :=
  NormalizePath h (mk (slice s pos count)).

(** The constructor with its default arguments [pos = 0], [count = npos]. *)
Definition of_string (h : Host) (s : std_string) : t := of_substring h s 0 None.

(** Modelled from the spec: [FilePath(const std::wstring&, pos, count)]
    converts the wide slice to UTF-8 and normalizes.  The conversion
    [utf8_encode] comes from [string.hpp] and is taken as a parameter. *)
Definition of_wstring {W : Type} (utf8_encode : list W -> std_string)
    (h : Host) (ws : list W) : t :=
  NormalizePath h (mk (utf8_encode ws)).

(** [std::string toString() const]. *)
Definition toString (this : t) : std_string := path this.

(** [bool empty() const]. *)
Definition empty (this : t) : bool := str_empty (path this).

(** [FilePath& operator= (const FilePath& rhs)]: the string is copied,
    "Not necessary to normalize". *)
Definition assign (this rhs : t) : t := mk (path rhs).

(** [FilePath& operator= (const std::string& str)] and the [const char*]
    overload. *)
Definition assign_string (h : Host) (this : t) (str : std_string) : t :=
  NormalizePath h (mk str).

(** [FilePath& operator= (const std::wstring& wstr)]. *)
Definition assign_wstring {W : Type} (utf8_encode : list W -> std_string)
    (h : Host) (this : t) (wstr : list W) : t :=
  NormalizePath h (mk (utf8_encode wstr)).

(** [FilePath& operator+= (const FilePath& rhs)]. *)
Definition plus_assign (h : Host) (this rhs : t) : t :=
  NormalizePath h (mk (path this ++ path rhs)).

(** The body of [operator/=] up to its final [NormalizePath()] call: the
    four branches on the emptiness of [path], its last character and the
    first character of [rhs.path]. *)
Definition div_raw (h : Host) (this rhs : t) : std_string :=
  if str_empty (path this) then
    if empty rhs || differs (front (path rhs)) (PATH_SEPARATOR_C h)
    then path this ++ (PATH_SEPARATOR h ++ path rhs)
    else path this ++ path rhs
  else
    if differs (back (path this)) (PATH_SEPARATOR_C h)
       && (empty rhs || differs (front (path rhs)) (PATH_SEPARATOR_C h))
    then path this ++ (PATH_SEPARATOR h ++ path rhs)
    else path this ++ path rhs.

(** [FilePath& operator/= (const FilePath& rhs)]. *)
Definition div_assign (h : Host) (this rhs : t) : t :=
  NormalizePath h (mk (div_raw h this rhs)).

(** The overloads taking a string build a [FilePath] from it first. *)
Definition plus_assign_string (h : Host) (this : t) (s : std_string) : t :=
  plus_assign h this (of_string h s).

Definition div_assign_string (h : Host) (this : t) (s : std_string) : t :=
  div_assign h this (of_string h s).

(** [operator+ (lhs, rhs)] is [FilePath(lhs) += rhs] and [operator/] is
    [FilePath(lhs) /= rhs]: the implicit copy constructor, then the
    in-place operator on the copy. *)
Definition copy (other : t) : t := mk (path other).

Definition plus (h : Host) (lhs rhs : t) : t := plus_assign h (copy lhs) rhs.

Definition div (h : Host) (lhs rhs : t) : t := div_assign h (copy lhs) rhs.

(** The invariant of the data model: no foreign separator is left in the
    canonical string. *)
Definition well_formed (h : Host) (this : t) : bool :=
  forallb (fun c => negb (Ascii.eqb c (FOREIGN_SEPARATOR_C h))) (path this).

(** Modelled from the spec: [std::string toGenericString() const] is
    declared in the header ("uses \ as path separator ALWAYS") and defined
    out of line: the canonical string with its separators written as one
    fixed character, the backslash of the header's comment. *)
Definition GENERIC_SEPARATOR_C : ascii := "\".

Definition toGenericString (h : Host) (this : t) : std_string :=
  replace (PATH_SEPARATOR_C h) GENERIC_SEPARATOR_C (path this).

(** Either separator character. *)
Definition is_separator (c : ascii) : bool :=
  Ascii.eqb c "/" || Ascii.eqb c "\".

(** The values a program can build: the constructors and the mutating
    operators of the header, applied to values built the same way. *)
Inductive reachable (h : Host) : t -> Prop :=
| R_default : reachable h empty_path
| R_of_substring (s : std_string) (pos : nat) (count : option nat) :
    reachable h (of_substring h s pos count)
| R_of_wstring (W : Type) (enc : list W -> std_string) (ws : list W) :
    reachable h (of_wstring enc h ws)
| R_copy (p : t) :
    reachable h p -> reachable h (copy p)
| R_assign (p q : t) :
    reachable h p -> reachable h q -> reachable h (assign p q)
| R_assign_string (p : t) (s : std_string) :
    reachable h p -> reachable h (assign_string h p s)
| R_assign_wstring (W : Type) (enc : list W -> std_string) (p : t) (ws : list W) :
    reachable h p -> reachable h (assign_wstring enc h p ws)
| R_plus_assign (p q : t) :
    reachable h p -> reachable h q -> reachable h (plus_assign h p q)
| R_plus_assign_string (p : t) (s : std_string) :
    reachable h p -> reachable h (plus_assign_string h p s)
| R_div_assign (p q : t) :
    reachable h p -> reachable h q -> reachable h (div_assign h p q)
| R_div_assign_string (p : t) (s : std_string) :
    reachable h p -> reachable h (div_assign_string h p s)
| R_plus (p q : t) :
    reachable h p -> reachable h q -> reachable h (plus h p q)
| R_div (p q : t) :
    reachable h p -> reachable h q -> reachable h (div h p q).

End FilePath.

Import FilePath.

(** ** Stream operators *)

Module Stream.

(** An output stream is the sequence of characters written so far (no
    field width is set). *)
Record ostream : Type := mk_ostream { written : std_string }.

(** An input stream: the characters not yet read, the two state bits that
    formatted extraction sets, and which of them are in the exception mask
    ([exceptions()]). *)
Record istream : Type := mk_istream {
  pending : std_string;
  eofbit : bool;
  failbit : bool;
  throws_eofbit : bool;
  throws_failbit : bool
}.

Definition good (ins : istream) : bool := negb (eofbit ins) && negb (failbit ins).

(** How a statement ends: normally, or with [std::ios_base::failure]
    propagating; either way with the state it reached. *)
Inductive completion (A : Type) : Type :=
| Done (a : A)
| Throws (a : A).

Arguments Done {A} a.
Arguments Throws {A} a.

(** How a call of a function that returns a value ends: a [return]
    statement gave the value, an exception left the function, or control
    reached the end of the body, which is undefined behaviour. *)
Inductive call (A : Type) : Type :=
| Returned (a : A)
| Raised (a : A)
| UndefinedBehaviour.

Arguments Returned {A} a.
Arguments Raised {A} a.
Arguments UndefinedBehaviour {A}.

(** [std::isspace] in the "C" locale: space and the controls 9 to 13. *)
Definition isspace (c : ascii) : bool :=
  let n := nat_of_ascii c in
  ((n =? 32) || ((9 <=? n) && (n <=? 13)))%nat.

Fixpoint skip_ws (s : std_string) : std_string :=
  match s with
  | [] => []
  | c :: rest => if isspace c then skip_ws rest else s
  end.

(** The longest prefix without whitespace, and what follows it. *)
Fixpoint read_token (s : std_string) : std_string * std_string :=
  match s with
  | [] => ([], [])
  | c :: rest =>
      if isspace c then ([], s)
      else let (tok, tl) := read_token rest in (c :: tok, tl)
  end.

(** [os << str]. *)
Definition put_string (os : ostream) (str : std_string) : ostream :=
  mk_ostream (written os ++ str).

(** [is.setstate(bits)], with [rest] the characters left unread: the bits
    are added to the state, and [std::ios_base::failure] is thrown when a
    bit that is then set is in the exception mask. *)
Definition setstate (ins : istream) (rest : std_string) (eof fail : bool)
    : completion istream :=
  let ins' := mk_istream rest (eofbit ins || eof) (failbit ins || fail)
                         (throws_eofbit ins) (throws_failbit ins) in
  if (eofbit ins' && throws_eofbit ins') || (failbit ins' && throws_failbit ins')
  then Throws ins'
  else Done ins'.

Definition with_string (c : completion istream) (s : std_string)
    : completion (istream * std_string) :=
  match c with
  | Done i => Done (i, s)
  | Throws i => Throws (i, s)
  end.

(** [is >> tmp] for a [std::string]: a stream that is not good, or that
    runs out while whitespace is skipped, gets [failbit] and leaves [tmp]
    as it was; otherwise [tmp] is replaced by the next token, and [eofbit]
    is set when the token reaches the end of the input. *)
Definition get_string (ins : istream) (tmp : std_string)
    : completion (istream * std_string) :=
  if good ins then
    match skip_ws (pending ins) with
    | [] => with_string (setstate ins [] true true) tmp
    | c :: rest =>
        let (tok, tl) := read_token (c :: rest) in
        with_string (setstate ins tl (str_empty tl) false) tok
    end
  else with_string (setstate ins (pending ins) false true) tmp.

(** [operator<< (os, path)]: [return os << path.toString();]. *)
Definition insert (os : ostream) (p : FilePath.t) : ostream :=
  put_string os (toString p).

(** The statements of [operator>> (is, path)], in order:
    [std::string tmp; is >> tmp; path = FilePath(tmp);].  The result is the
    state of the two reference parameters when the last statement is done,
    or when [is >> tmp] throws (the assignment is then not reached). *)
Definition extract_statements (h : Host) (ins : istream) (p : FilePath.t)
    : completion (istream * FilePath.t) :=
  let tmp : std_string := [] in
  match get_string ins tmp with
  | Done (ins', tmp') => Done (ins', assign p (of_string h tmp'))
  | Throws (ins', _) => Throws (ins', p)
  end.

(** [operator>> (is, path)]: the function is declared to return
    [std::basic_istream<charT,traits>&], and its body is the three
    statements above with no [return] statement after them.  When the
    statements complete, control reaches the end of the body. *)
Definition extract (h : Host) (ins : istream) (p : FilePath.t)
    : call (istream * FilePath.t) :=
  match extract_statements h ins p with
  | Done _ => UndefinedBehaviour
  | Throws s => Raised s
  end.

End Stream.

(** ** Resolver and process-wide cache *)

Module Resolver.

(** The four [static std::string] members; an empty string is an unset
    entry. *)
Record Cache : Type := mk_cache {
  settings_folder : std_string;
  udata_folder : std_string;
  cache_folder : std_string;
  assets_base : std_string
}.

Definition unset : Cache := mk_cache [] [] [] [].

Inductive UserDir : Type :=
| Settings
| UserData
| UserCache.

Definition cached (d : UserDir) (c : Cache) : std_string :=
  match d with
  | Settings => settings_folder c
  | UserData => udata_folder c
  | UserCache => cache_folder c
  end.

Definition set_cached (d : UserDir) (v : std_string) (c : Cache) : Cache :=
  match d with
  | Settings => mk_cache v (udata_folder c) (cache_folder c) (assets_base c)
  | UserData => mk_cache (settings_folder c) v (cache_folder c) (assets_base c)
  | UserCache => mk_cache (settings_folder c) (udata_folder c) v (assets_base c)
  end.

Definition set_assets_base (v : std_string) (c : Cache) : Cache :=
  mk_cache (settings_folder c) (udata_folder c) (cache_folder c) v.

(** What the host answers: which directories exist, the query for the
    running executable, the queries for the per-user base directories
    ([None] when a query fails), and the application name. *)
Record Env : Type := mk_env {
  dir_exists : std_string -> bool;
  program_query : option std_string;
  user_dir_query : UserDir -> option std_string;
  app_name : std_string
}.

(** Modelled from the spec: [static FilePath GetProgramPath()] is defined
    out of line; the executable's path from the host query, the empty path
    when the query fails. *)
Definition GetProgramPath (h : Host) (env : Env) : FilePath.t :=
  match program_query env with
  | Some s => of_string h s
  | None => empty_path
  end.

(** The prefix of [s] up to and including its last [c]; empty when [c]
    does not occur. *)
Fixpoint upto_last (c : ascii) (s : std_string) : std_string :=
  match s with
  | [] => []
  | x :: rest =>
      match upto_last c rest with
      | [] => if Ascii.eqb x c then [x] else []
      | r => x :: r
      end
  end.

(** Modelled from the spec: [FilePath BasePath() const] is defined out of
    line; the path truncated to, and including, the separator before its
    final element, a trailing separator being dropped first; empty when
    there is no such separator. *)
Definition BasePath (h : Host) (this : FilePath.t) : FilePath.t :=
  let s := path this in
  let s' := if differs (back s) (PATH_SEPARATOR_C h) then s else removelast s in
  of_string h (upto_last (PATH_SEPARATOR_C h) s').

(** Modelled from the spec: the probe candidates of [GetAssetsBasePath], in
    priority order: [./assets/], then [assets/], [../assets/] and
    [../share/assets/] under the directory of the executable. *)
Definition asset_candidates (h : Host) (env : Env) : list FilePath.t :=
  let exe_dir := BasePath h (GetProgramPath h env) in
  [ of_string h (lit "./assets/");
    div_assign_string h exe_dir (lit "assets/");
    div_assign_string h exe_dir (lit "../assets/");
    div_assign_string h exe_dir (lit "../share/assets/") ].

(** The first candidate whose directory exists, with the list of the
    directories that were tested. *)
Fixpoint probe (exists_dir : std_string -> bool) (cands : list FilePath.t)
    : option FilePath.t * list std_string :=
  match cands with
  | [] => (None, [])
  | c :: rest =>
      if exists_dir (toString c) then (Some c, [toString c])
      else let (r, log) := probe exists_dir rest in (r, toString c :: log)
  end.

(** Modelled from the spec: [static FilePath GetAssetsBasePath()] is
    defined out of line.  A cached value is returned as it is; otherwise
    the candidates are probed in order, the first existing one is cached
    and returned, and when none exists the empty path is returned and
    nothing is cached.  The result comes with the new cache and the
    directories tested by this call. *)
Definition GetAssetsBasePath (h : Host) (env : Env) (c : Cache)
    : FilePath.t * Cache * list std_string :=
  if str_empty (assets_base c) then
    match probe (dir_exists env) (asset_candidates h env) with
    | (Some p, log) => (p, set_assets_base (toString p) c, log)
    | (None, log) => (empty_path, c, log)
    end
  else (FilePath.mk (assets_base c), c, []).

(** Modelled from the spec: [static void SetAssetsBasePath(FilePath)]
    replaces the cached value unconditionally. *)
Definition SetAssetsBasePath (p : FilePath.t) (c : Cache) : Cache :=
  set_assets_base (toString p) c.

(** Modelled from the spec: [GetUserSettingsPath], [GetUserDataPath] and
    [GetUserCachePath] are defined out of line.  Each returns its cached
    directory when there is one; otherwise it asks the host for the
    conventional base directory, appends the application name, caches and
    returns the result; when the host query fails it returns the empty
    path and caches nothing. *)
Definition GetUserPath (h : Host) (env : Env) (d : UserDir) (c : Cache)
    : FilePath.t * Cache :=
  if str_empty (cached d c) then
    match user_dir_query env d with
    | Some base =>
        let p := div_assign_string h (of_string h base) (app_name env) in
        (p, set_cached d (toString p) c)
    | None => (empty_path, c)
    end
  else (FilePath.mk (cached d c), c).

Definition GetUserSettingsPath h env c := GetUserPath h env Settings c.
Definition GetUserDataPath h env c := GetUserPath h env UserData c.
Definition GetUserCachePath h env c := GetUserPath h env UserCache c.

End Resolver.

Import Stream Resolver.

(** ** Vocabulary of the properties *)

(** A string ends in, or begins with, the native separator. *)
Definition ends_with_sep (h : Host) (s : std_string) : Prop :=
  exists s', s = s' ++ [PATH_SEPARATOR_C h].

Definition begins_with_sep (h : Host) (s : std_string) : Prop :=
  exists s', s = PATH_SEPARATOR_C h :: s'.

(** A string without the host's foreign separator. *)
Definition native_only (h : Host) (s : std_string) : bool :=
  forallb (fun c => negb (Ascii.eqb c (FOREIGN_SEPARATOR_C h))) s.

(** A path that [NormalizePath] leaves as it is. *)
Definition normal_form (h : Host) (p : FilePath.t) : Prop :=
  NormalizePath h p = p.

(** What [operator/=] puts between the two strings: one separator when the
    left string does not end in one and the right string does not begin with
    one. *)
Definition junction (h : Host) (l r : std_string) : std_string :=
  if differs (back l) (PATH_SEPARATOR_C h) && differs (front r) (PATH_SEPARATOR_C h)
  then [PATH_SEPARATOR_C h]
  else [].

(** Two adjacent occurrences of [c]. *)
Fixpoint has_doubled (c : ascii) (s : std_string) : bool :=
  match s with
  | [] => false
  | x :: rest =>
      (Ascii.eqb x c && negb (differs (front rest) c)) || has_doubled c rest
  end.

(** A fresh input stream over the characters [s]: no state bit set, nothing
    in the exception mask. *)
Definition istream_of (s : std_string) : istream :=
  mk_istream s false false false false.

(** Equality of two strings, for the hosts of the examples. *)
Fixpoint str_eqb (s r : std_string) : bool :=
  match s, r with
  | [], [] => true
  | x :: s', y :: r' => Ascii.eqb x y && str_eqb s' r'
  | _, _ => false
  end.

(** A host where the executable is [/opt/tec/bin/tec] and, of the probe
    candidates, only [/opt/tec/bin/../assets/] exists; and a host with no
    directory at all. *)
Definition only_sibling_assets : Env :=
  mk_env (str_eqb (lit "/opt/tec/bin/../assets/"))
         (Some (lit "/opt/tec/bin/tec"))
         (fun _ => None)
         (lit "tec").

Definition no_directories : Env :=
  mk_env (fun _ => false) None (fun _ => None) (lit "tec").

(** ** Accessors *)

Lemma back_snoc (s : std_string) (c : ascii) : back (s ++ [c]) = Some c.
Proof.
  induction s as [|x s IH]; [reflexivity|].
  simpl. rewrite IH. destruct (s ++ [c]) eqn:E; [|reflexivity].
  destruct s; discriminate.
Qed.

Lemma back_Some (s : std_string) (c : ascii) :
  back s = Some c <-> exists s', s = s' ++ [c].
Proof.
  split.
  - induction s as [|x s IH]; [discriminate|].
    destruct s as [|y s].
    + simpl. intros [= ->]. now exists [].
    + intros H. destruct (IH H) as [s' ->]. now exists (x :: s').
  - intros [s' ->]. apply back_snoc.
Qed.

Lemma back_app_nonempty (s r : std_string) : r <> [] -> back (s ++ r) = back r.
Proof.
  intros Hr. destruct (exists_last Hr) as (r' & c & ->).
  now rewrite app_assoc, !back_snoc.
Qed.

Lemma differs_false (o : option ascii) (c : ascii) :
  differs o c = false <-> o = Some c.
Proof.
  destruct o as [x|]; simpl.
  - rewrite negb_false_iff, Ascii.eqb_eq. split; congruence.
  - split; discriminate.
Qed.

Lemma differs_back (h : Host) (s : std_string) :
  differs (back s) (PATH_SEPARATOR_C h) = false <-> ends_with_sep h s.
Proof. now rewrite differs_false, back_Some. Qed.

Lemma differs_front (h : Host) (s : std_string) :
  differs (front s) (PATH_SEPARATOR_C h) = false <-> begins_with_sep h s.
Proof.
  rewrite differs_false. unfold begins_with_sep. destruct s as [|x s]; simpl.
  - split; [discriminate | intros [? [=]]].
  - split; [intros [= ->]; eauto | intros [? [= -> _]]; reflexivity].
Qed.

Lemma not_ends_differs (h : Host) (s : std_string) :
  ~ ends_with_sep h s <-> differs (back s) (PATH_SEPARATOR_C h) = true.
Proof. rewrite <- differs_back. destruct (differs _ _); split; congruence. Qed.

Lemma not_begins_differs (h : Host) (s : std_string) :
  ~ begins_with_sep h s <-> differs (front s) (PATH_SEPARATOR_C h) = true.
Proof. rewrite <- differs_front. destruct (differs _ _); split; congruence. Qed.

Lemma empty_not_ends (h : Host) : ~ ends_with_sep h [].
Proof. intros [[|? ?] H]; discriminate. Qed.

Lemma empty_not_begins (h : Host) : ~ begins_with_sep h [].
Proof. intros [? H]; discriminate. Qed.

(** ** Normalization *)

Lemma separators_distinct (h : Host) : FOREIGN_SEPARATOR_C h <> PATH_SEPARATOR_C h.
Proof. destruct h; discriminate. Qed.

Lemma replace_native_only (h : Host) (s : std_string) :
  native_only h (replace (FOREIGN_SEPARATOR_C h) (PATH_SEPARATOR_C h) s) = true.
Proof.
  induction s as [|c s IH]; [reflexivity|].
  simpl. rewrite IH, andb_true_r.
  destruct (Ascii.eqb_spec c (FOREIGN_SEPARATOR_C h)) as [->|N].
  - apply negb_true_iff, Ascii.eqb_neq. intro E. now apply (separators_distinct h).
  - now apply negb_true_iff, Ascii.eqb_neq.
Qed.

Lemma replace_fixed (h : Host) (s : std_string) :
  native_only h s = true ->
  replace (FOREIGN_SEPARATOR_C h) (PATH_SEPARATOR_C h) s = s.
Proof.
  induction s as [|c s IH]; [reflexivity|].
  simpl. intros [Hc Hs]%andb_true_iff. rewrite (IH Hs).
  apply negb_true_iff in Hc. now rewrite Hc.
Qed.

Lemma native_only_skipn (h : Host) (n : nat) (s : std_string) :
  native_only h s = true -> native_only h (skipn n s) = true.
Proof.
  revert s. induction n as [|n IH]; intros s; [easy|].
  destruct s as [|c s]; [easy|]. simpl. intros [_ Hs]%andb_true_iff. now apply IH.
Qed.

Lemma strip_drive_native_only (h : Host) (s : std_string) :
  native_only h s = true -> native_only h (strip_drive s) = true.
Proof.
  unfold strip_drive. destruct (has_drive_prefix s); [apply native_only_skipn | easy].
Qed.

Lemma normalize_native_only (h : Host) (s : std_string) :
  native_only h (normalize h s) = true.
Proof.
  unfold normalize. destruct h.
  - apply strip_drive_native_only, replace_native_only.
  - apply replace_native_only.
Qed.

(** On a string that holds only native separators, normalization can only
    remove a drive prefix, and only off Windows. *)
Lemma normalize_native (h : Host) (s : std_string) :
  native_only h s = true ->
  normalize h s = match h with Win32 => s | Posix => strip_drive s end.
Proof. intros H. unfold normalize. rewrite (replace_fixed h s H). now destruct h. Qed.

Lemma normalize_fixed (h : Host) (s : std_string) :
  native_only h s = true -> (h = Win32 \/ has_drive_prefix s = false) ->
  normalize h s = s.
Proof.
  intros H D. rewrite (normalize_native h s H). destruct h; [|reflexivity].
  destruct D as [D|D]; [discriminate|]. unfold strip_drive. now rewrite D.
Qed.

Lemma strip_drive_fixed (s : std_string) :
  strip_drive s = s <-> has_drive_prefix s = false.
Proof.
  unfold strip_drive. destruct (has_drive_prefix s) eqn:E.
  - split; [|discriminate]. intros H. apply (f_equal (@List.length ascii)) in H.
    rewrite length_skipn in H. destruct s as [|a [|b s]]; try discriminate.
    simpl in H. lia.
  - now split.
Qed.

Lemma length_normalize (h : Host) (s : std_string) :
  List.length s <= List.length (normalize h s) + 2.
Proof.
  unfold normalize, strip_drive, replace. destruct h.
  - destruct (has_drive_prefix _); rewrite ?length_skipn, length_map; lia.
  - rewrite length_map. lia.
Qed.

Lemma app_native_only (h : Host) (s r : std_string) :
  native_only h (s ++ r) = native_only h s && native_only h r.
Proof. apply forallb_app. Qed.

Lemma separator_native_only (h : Host) : native_only h [PATH_SEPARATOR_C h] = true.
Proof. now destruct h. Qed.

(** ** The append and concatenation operators *)

Lemma empty_or_differs (q : FilePath.t) (c : ascii) :
  empty q || differs (front (path q)) c = differs (front (path q)) c.
Proof. unfold empty. now destruct (path q). Qed.

(** The four branches of [operator/=] amount to one test: a separator is put
    at the junction exactly when the left string does not end in one and the
    right string does not begin with one. *)
Lemma div_raw_cases (h : Host) (p q : FilePath.t) :
  (~ ends_with_sep h (path p) /\ ~ begins_with_sep h (path q) /\
   div_raw h p q = path p ++ [PATH_SEPARATOR_C h] ++ path q)
  \/
  ((ends_with_sep h (path p) \/ begins_with_sep h (path q)) /\
   div_raw h p q = path p ++ path q).
Proof.
  unfold div_raw. rewrite empty_or_differs.
  destruct (differs (front (path q)) (PATH_SEPARATOR_C h)) eqn:F.
  - apply not_begins_differs in F.
    destruct (path p) as [|x s] eqn:P.
    + left. cbn [str_empty]. auto using empty_not_ends.
    + cbn [str_empty]. rewrite andb_true_r.
      destruct (differs (back (x :: s)) (PATH_SEPARATOR_C h)) eqn:B.
      * left. apply not_ends_differs in B. auto.
      * right. apply differs_back in B. auto.
  - apply differs_front in F. right. split; [now right|].
    rewrite andb_false_r. now destruct (str_empty (path p)).
Qed.

Lemma copy_path (p : FilePath.t) : copy p = p.
Proof. now destruct p. Qed.

Lemma div_is_div_assign (h : Host) (p q : FilePath.t) : div h p q = div_assign h p q.
Proof. unfold div. now rewrite copy_path. Qed.

Lemma plus_is_plus_assign (h : Host) (p q : FilePath.t) : plus h p q = plus_assign h p q.
Proof. unfold plus. now rewrite copy_path. Qed.

Lemma div_raw_native_only (h : Host) (p q : FilePath.t) :
  well_formed h p = true -> well_formed h q = true ->
  native_only h (div_raw h p q) = true.
Proof.
  unfold well_formed. fold (native_only h (path p)) (native_only h (path q)).
  intros Hp Hq.
  destruct (div_raw_cases h p q) as [(_ & _ & ->)|(_ & ->)];
    rewrite !app_native_only, ?Hp, ?Hq, ?separator_native_only; reflexivity.
Qed.

Lemma length_div_raw (h : Host) (p q : FilePath.t) :
  List.length (path q) <= List.length (div_raw h p q).
Proof.
  destruct (div_raw_cases h p q) as [(_ & _ & ->)|(_ & ->)];
    rewrite !length_app; lia.
Qed.

(** C1, as the specification states it, fails: when the left operand ends in
    a separator and the right one begins with one, both are kept. *)
Lemma div_keeps_both_separators :
  toString (div Posix (of_string Posix (lit "a/")) (of_string Posix (lit "/b")))
  <> lit "a/b".
Proof. vm_compute. discriminate. Qed.

(** C1 (amended): [p / q] (and [p /= q]) is the normalization of [p]'s string,
    a junction and [q]'s string, where the junction is one native separator
    when [p] does not end in the separator and [q] does not begin with it, and
    is empty otherwise; for operands that satisfy the invariant the final
    normalization can only strip a drive prefix off Windows.  Nothing is ever
    removed at the junction: [Path("a") / Path("b")] and
    [Path("a/") / Path("b")] give [a/b] with the host separator, and
    [Path("a/") / Path("/b")] gives [a//b]. *)
Theorem div_junction (h : Host) (p q : FilePath.t) :
  (exists j : std_string,
      toString (div h p q) = normalize h (path p ++ j ++ path q) /\
      ((j = [PATH_SEPARATOR_C h] /\
        ~ ends_with_sep h (path p) /\ ~ begins_with_sep h (path q)) \/
       (j = [] /\ (ends_with_sep h (path p) \/ begins_with_sep h (path q)))) /\
      (well_formed h p = true -> well_formed h q = true ->
       toString (div h p q) =
         match h with
         | Win32 => path p ++ j ++ path q
         | Posix => strip_drive (path p ++ j ++ path q)
         end)) /\
  div_assign h p q = div h p q /\
  toString (div h (of_string h (lit "a")) (of_string h (lit "b")))
    = ["a"; PATH_SEPARATOR_C h; "b"] /\
  toString (div h (of_string h (lit "a/")) (of_string h (lit "b")))
    = ["a"; PATH_SEPARATOR_C h; "b"] /\
  toString (div h (of_string h (lit "a/")) (of_string h (lit "/b")))
    = ["a"; PATH_SEPARATOR_C h; PATH_SEPARATOR_C h; "b"].
Proof.
  split; [|split; [symmetry; apply div_is_div_assign | now destruct h]].
  rewrite div_is_div_assign. unfold div_assign, NormalizePath, toString. cbn [path].
  pose proof (div_raw_native_only h p q) as N.
  destruct (div_raw_cases h p q) as [(E & B & R)|(EB & R)]; rewrite R in *.
  - exists [PATH_SEPARATOR_C h]. split; [reflexivity|]. split; [left; auto|].
    intros Hp Hq. now apply normalize_native, N.
  - exists []. split; [reflexivity|]. split; [right; auto|].
    intros Hp Hq. now apply normalize_native, N.
Qed.

(** C2: with an empty left operand a separator is prepended exactly when the
    right operand does not begin with the native separator, so the result
    begins with a separator either way; for a right operand that satisfies
    the invariant the result is the right string itself, or the separator
    followed by it. *)
Theorem div_empty_left (h : Host) (q : FilePath.t) :
  ((~ begins_with_sep h (path q) /\
    toString (div_assign h empty_path q) = normalize h (PATH_SEPARATOR_C h :: path q)) \/
   (begins_with_sep h (path q) /\
    toString (div_assign h empty_path q) = normalize h (path q))) /\
  begins_with_sep h (toString (div_assign h empty_path q)) /\
  (well_formed h q = true ->
   (~ begins_with_sep h (path q) ->
    toString (div_assign h empty_path q) = PATH_SEPARATOR_C h :: path q) /\
   (begins_with_sep h (path q) ->
    toString (div_assign h empty_path q) = path q)).
Proof.
  unfold div_assign, NormalizePath, toString, div_raw. cbn [path empty_path str_empty app].
  rewrite empty_or_differs.
  assert (S : forall s, begins_with_sep h (normalize h (PATH_SEPARATOR_C h :: s))).
  { intros s. destruct h; [destruct s|]; cbn; eexists; reflexivity. }
  destruct (differs (front (path q)) (PATH_SEPARATOR_C h)) eqn:F.
  - apply not_begins_differs in F. cbn [PATH_SEPARATOR app].
    split; [left; auto|]. split; [apply S|].
    intros Hq. split; [|tauto]. intros _. apply normalize_fixed.
    + cbn. unfold well_formed in Hq. rewrite Hq. now destruct h.
    + right. destruct h; destruct (path q) as [|? ?]; reflexivity.
  - apply differs_front in F.
    split; [right; auto|]. destruct F as [s F]. rewrite F. split; [apply S|].
    intros Hq. split; [intros N; destruct N; now exists s|]. intros _.
    apply normalize_fixed.
    + unfold well_formed in Hq. now rewrite F in Hq.
    + right. destruct h; destruct s as [|? ?]; reflexivity.
Qed.

(** C3: [+] and [+=] join the two canonical strings with nothing in between
    and normalize, while [/] and [/=] put a separator at a bare junction:
    [Path("a") + Path("b")] is [ab] and [Path("a") / Path("b")] is [a/b]
    with the host separator. *)
Theorem plus_concatenates (h : Host) (p q : FilePath.t) :
  toString (plus_assign h p q) = normalize h (path p ++ path q) /\
  plus h p q = plus_assign h p q /\
  toString (plus h (of_string h (lit "a")) (of_string h (lit "b"))) = lit "ab" /\
  toString (div h (of_string h (lit "a")) (of_string h (lit "b")))
    = ["a"; PATH_SEPARATOR_C h; "b"] /\
  toString (plus_assign h (of_string h (lit "a")) (of_string h (lit "b"))) = lit "ab" /\
  toString (div_assign h (of_string h (lit "a")) (of_string h (lit "b")))
    = ["a"; PATH_SEPARATOR_C h; "b"].
Proof.
  split; [reflexivity|]. split; [apply plus_is_plus_assign|]. now destruct h.
Qed.

(** ** The invariant *)

Lemma NormalizePath_well_formed (h : Host) (p : FilePath.t) :
  well_formed h (NormalizePath h p) = true.
Proof. apply normalize_native_only. Qed.

Create HintDb filepath.
#[local] Hint Resolve NormalizePath_well_formed : filepath.

(** C5: every value built by the constructors and the mutating operators of
    the header holds no foreign separator; copy-assignment takes the string
    of a value that already satisfies this, the other operations end in
    [NormalizePath]. *)
Theorem reachable_well_formed (h : Host) (p : FilePath.t) :
  reachable h p -> well_formed h p = true.
Proof.
  induction 1 as [ | s pos count | W enc ws | p _ IH | p q _ _ _ IH
                 | p s _ _ | W enc p ws _ _ | p q _ _ _ _ | p s _ _
                 | p q _ _ _ _ | p s _ _ | p q _ _ _ _ | p q _ _ _ _ ];
    try exact IH; try reflexivity;
    unfold of_substring, of_wstring, assign_string, assign_wstring, plus_assign_string,
      div_assign_string, plus, div, plus_assign, div_assign;
    auto with filepath.
Qed.

Lemma reachable_well_formed_witness :
  reachable Posix (assign empty_path (div Posix (of_string Posix (lit "C:\a")) (of_string Posix (lit "b\c"))))
  /\ well_formed Posix
       (assign empty_path (div Posix (of_string Posix (lit "C:\a")) (of_string Posix (lit "b\c"))))
     = true.
Proof.
  assert (R : reachable Posix
                (assign empty_path
                   (div Posix (of_string Posix (lit "C:\a")) (of_string Posix (lit "b\c"))))).
  { apply R_assign; [apply R_default | apply R_div; apply R_of_substring]. }
  split; [exact R | exact (reachable_well_formed Posix _ R)].
Defined.

(** ** Appending the empty path *)

Lemma strip_drive_snoc (h : Host) (s : std_string) :
  strip_drive (s ++ [PATH_SEPARATOR_C h]) = strip_drive s ++ [PATH_SEPARATOR_C h].
Proof.
  destruct s as [|a [|b s]]; cbn [app]; unfold strip_drive, has_drive_prefix.
  - reflexivity.
  - destruct h, (is_letter a); reflexivity.
  - now destruct (is_letter a && Ascii.eqb b ":").
Qed.

Lemma normalize_snoc (h : Host) (s : std_string) :
  normalize h (s ++ [PATH_SEPARATOR_C h]) = normalize h s ++ [PATH_SEPARATOR_C h].
Proof.
  unfold normalize, replace. rewrite map_app. cbn [map].
  assert (E : Ascii.eqb (PATH_SEPARATOR_C h) (FOREIGN_SEPARATOR_C h) = false)
    by now destruct h.
  rewrite E. destruct h; [apply (strip_drive_snoc Posix) | reflexivity].
Qed.

Lemma has_drive_prefix_snoc (h : Host) (s : std_string) :
  has_drive_prefix (s ++ [PATH_SEPARATOR_C h]) = has_drive_prefix s.
Proof.
  destruct s as [|a [|b s]]; cbn [app has_drive_prefix]; try reflexivity.
  destruct h, (is_letter a); reflexivity.
Qed.

Lemma div_raw_empty_right (h : Host) (p : FilePath.t) :
  (~ ends_with_sep h (path p) /\ div_raw h p empty_path = path p ++ [PATH_SEPARATOR_C h])
  \/ (ends_with_sep h (path p) /\ div_raw h p empty_path = path p).
Proof.
  destruct (div_raw_cases h p empty_path) as [(E & _ & R)|([E|B] & R)].
  - left. split; [exact E | exact R].
  - right. split; [exact E|]. rewrite R. apply app_nil_r.
  - now apply empty_not_begins in B.
Qed.

(** C10: [p /= FilePath()] is the identity only for a [p] that ends in the
    native separator.  For every other [p], the empty one included, a
    separator is appended: the result is the normalization of [p]'s string
    followed by the separator, it ends in the separator and differs from
    [p]; [FilePath() /= FilePath()] is the separator string.  A [p] that ends
    in the separator is re-normalized and nothing else. *)
Theorem div_assign_empty_rhs (h : Host) (p : FilePath.t) :
  (~ ends_with_sep h (path p) ->
     toString (div_assign h p empty_path) = normalize h (path p) ++ [PATH_SEPARATOR_C h] /\
     toString (div_assign h p empty_path) = normalize h (path p ++ [PATH_SEPARATOR_C h]) /\
     ends_with_sep h (toString (div_assign h p empty_path)) /\
     div_assign h p empty_path <> p) /\
  (~ ends_with_sep h (path p) -> well_formed h p = true ->
     (h = Win32 \/ has_drive_prefix (path p) = false) ->
     toString (div_assign h p empty_path) = path p ++ [PATH_SEPARATOR_C h]) /\
  toString (div_assign h empty_path empty_path) = PATH_SEPARATOR h /\
  empty (div_assign h empty_path empty_path) = false /\
  (div_assign h p empty_path = p -> ends_with_sep h (path p)) /\
  (ends_with_sep h (path p) ->
     toString (div_assign h p empty_path) = normalize h (path p)) /\
  (ends_with_sep h (path p) -> well_formed h p = true ->
     (h = Win32 \/ has_drive_prefix (path p) = false) ->
     div_assign h p empty_path = p).
Proof.
  assert (A : ~ ends_with_sep h (path p) ->
     toString (div_assign h p empty_path) = normalize h (path p) ++ [PATH_SEPARATOR_C h] /\
     toString (div_assign h p empty_path) = normalize h (path p ++ [PATH_SEPARATOR_C h]) /\
     ends_with_sep h (toString (div_assign h p empty_path)) /\
     div_assign h p empty_path <> p).
  { intros N. unfold div_assign, NormalizePath, toString. cbn [path].
    destruct (div_raw_empty_right h p) as [(_ & ->)|(E & _)]; [|contradiction].
    rewrite normalize_snoc. repeat split.
    - now exists (normalize h (path p)).
    - intros Q. apply N. rewrite <- Q. cbn [path]. now exists (normalize h (path p)). }
  assert (B : ends_with_sep h (path p) ->
     toString (div_assign h p empty_path) = normalize h (path p)).
  { intros E. unfold div_assign, NormalizePath, toString. cbn [path].
    destruct (div_raw_empty_right h p) as [(N & _)|(_ & ->)]; [contradiction | reflexivity]. }
  split; [exact A|]. split.
  { intros N W D. destruct (A N) as (-> & _). f_equal. now apply normalize_fixed. }
  split; [now destruct h|]. split; [now destruct h|]. split.
  { intros Q. destruct (differs (back (path p)) (PATH_SEPARATOR_C h)) eqn:F.
    - apply not_ends_differs in F. now destruct (A F) as (_ & _ & _ & X).
    - now apply differs_back in F. }
  split; [exact B|].
  intros E W D. destruct p as [s]. unfold toString in B. cbn [path] in *.
  specialize (B E). unfold div_assign, NormalizePath in *. cbn [path] in *.
  f_equal. rewrite B. now apply normalize_fixed.
Qed.

(** ** The generic form *)

Lemma replace_replace (a b c : ascii) (s : std_string) :
  replace b c (replace a b s) =
  map (fun x => if Ascii.eqb x a || Ascii.eqb x b then c else x) s.
Proof.
  unfold replace. rewrite map_map. apply map_ext. intros x.
  destruct (Ascii.eqb x a); cbn.
  - now rewrite Ascii.eqb_refl.
  - reflexivity.
Qed.

Lemma has_drive_prefix_replace (h : Host) (s : std_string) :
  has_drive_prefix (replace (FOREIGN_SEPARATOR_C h) (PATH_SEPARATOR_C h) s)
  = has_drive_prefix s.
Proof.
  destruct s as [|a [|b s]]; try reflexivity. cbn.
  destruct (Ascii.eqb_spec a (FOREIGN_SEPARATOR_C h)) as [->|_];
    destruct (Ascii.eqb_spec b (FOREIGN_SEPARATOR_C h)) as [->|_];
    destruct h; cbn; rewrite ?andb_false_r; reflexivity.
Qed.

(** C9: the generic form of a path that satisfies the invariant holds one
    separator character only, the backslash named in the header, whatever
    the host; and the same text, when it has no drive prefix, has the same
    generic form on both hosts. *)
Theorem toGenericString_fixed_separator (h : Host) (p : FilePath.t) :
  well_formed h p = true ->
  (forall c, In c (toGenericString h p) -> is_separator c = true ->
             c = GENERIC_SEPARATOR_C) /\
  (forall s, has_drive_prefix s = false ->
             toGenericString Posix (of_string Posix s)
             = toGenericString Win32 (of_string Win32 s)).
Proof.
  intros W. split.
  - intros c Hc Sep. unfold toGenericString, replace in Hc.
    apply in_map_iff in Hc. destruct Hc as (x & <- & Hx).
    destruct (Ascii.eqb_spec x (PATH_SEPARATOR_C h)) as [_|N]; [reflexivity|].
    unfold well_formed in W. rewrite forallb_forall in W. specialize (W x Hx).
    apply negb_true_iff, Ascii.eqb_neq in W.
    unfold is_separator in Sep. apply orb_true_iff in Sep.
    destruct Sep as [E|E]; apply Ascii.eqb_eq in E; subst x; destruct h; cbn in N, W;
      first [reflexivity | congruence].
  - intros s D. unfold toGenericString, of_string, of_substring, NormalizePath, slice.
    cbn [path skipn]. unfold normalize, strip_drive.
    rewrite (has_drive_prefix_replace Posix), D.
    cbn [FOREIGN_SEPARATOR_C PATH_SEPARATOR_C]. unfold GENERIC_SEPARATOR_C.
    rewrite !replace_replace. apply map_ext. intros x.
    destruct (Ascii.eqb x "\"), (Ascii.eqb x "/"); reflexivity.
Qed.

Lemma toGenericString_fixed_separator_witness :
  well_formed Posix (of_string Posix (lit "C:\assets/mesh.obj")) = true /\
  toGenericString Posix (of_string Posix (lit "C:\assets/mesh.obj")) = lit "\assets\mesh.obj" /\
  (forall c, In c (toGenericString Posix (of_string Posix (lit "C:\assets/mesh.obj"))) ->
             is_separator c = true -> c = GENERIC_SEPARATOR_C).
Proof.
  split; [reflexivity|]. split; [reflexivity|].
  exact (proj1 (toGenericString_fixed_separator Posix
                  (of_string Posix (lit "C:\assets/mesh.obj")) eq_refl)).
Defined.

(** ** Stream insertion and extraction *)

Lemma skip_ws_app (ws s : std_string) :
  forallb isspace ws = true -> skip_ws (ws ++ s) = skip_ws s.
Proof.
  induction ws as [|c ws IH]; [reflexivity|].
  cbn [forallb app skip_ws]. intros [Hc Hw]%andb_true_iff. rewrite Hc. now apply IH.
Qed.

Lemma read_token_app (tok rest : std_string) :
  forallb (fun c => negb (isspace c)) tok = true ->
  (rest = [] \/ exists c r, rest = c :: r /\ isspace c = true) ->
  read_token (tok ++ rest) = (tok, rest).
Proof.
  intros T R. induction tok as [|x tok IH].
  - destruct R as [->|(c & r & -> & Hc)]; [reflexivity|]. cbn. now rewrite Hc.
  - cbn [forallb] in T. apply andb_true_iff in T as [Hx T].
    apply negb_true_iff in Hx. cbn [app read_token]. now rewrite Hx, (IH T).
Qed.

Lemma setstate_no_mask (ins : istream) (rest : std_string) (eof fail : bool) :
  throws_eofbit ins = false -> throws_failbit ins = false ->
  setstate ins rest eof fail
  = Done (mk_istream rest (eofbit ins || eof) (failbit ins || fail) false false).
Proof.
  intros E F. unfold setstate. cbn [eofbit failbit throws_eofbit throws_failbit].
  now rewrite E, F, !andb_false_r.
Qed.

(** With nothing in the exception mask the two statements of [operator>>]
    always run to the end of the body. *)
Lemma extract_statements_no_mask (h : Host) (ins : istream) (p : FilePath.t) :
  throws_eofbit ins = false -> throws_failbit ins = false ->
  exists s, extract_statements h ins p = Done s.
Proof.
  intros E F. unfold extract_statements, get_string.
  destruct (good ins); [destruct (skip_ws (pending ins)) as [|c rest];
                        [|destruct (read_token (c :: rest)) as [tok tl]]|];
    rewrite (setstate_no_mask _ _ _ _ E F); cbn [with_string]; eauto.
Qed.

(** What the statements compute on a good stream that holds a token: the
    token is consumed and the path built from it is assigned. *)
Lemma extract_statements_token (h : Host) (ins : istream) (p : FilePath.t)
    (ws tok rest : std_string) :
  throws_eofbit ins = false -> throws_failbit ins = false ->
  good ins = true ->
  pending ins = ws ++ tok ++ rest ->
  forallb isspace ws = true ->
  tok <> [] ->
  forallb (fun c => negb (isspace c)) tok = true ->
  (rest = [] \/ exists c r, rest = c :: r /\ isspace c = true) ->
  extract_statements h ins p
  = Done (mk_istream rest (str_empty rest) false false false, of_string h tok).
Proof.
  intros E F G P W T NW R. unfold extract_statements, get_string.
  rewrite G, P, (skip_ws_app _ _ W).
  destruct tok as [|x tok]; [contradiction|].
  assert (Hx : isspace x = false).
  { cbn [forallb] in NW. apply andb_true_iff in NW as [Hx _].
    now apply negb_true_iff. }
  cbn [app skip_ws]. rewrite Hx.
  change (x :: tok ++ rest) with ((x :: tok) ++ rest).
  rewrite (read_token_app _ _ NW R), (setstate_no_mask _ _ _ _ E F).
  unfold good in G. apply andb_true_iff in G as [Ge Gf].
  apply negb_true_iff in Ge, Gf. now rewrite Ge, Gf.
Qed.

(** C8: [operator<<] writes the characters of [toString()] and returns the
    stream.  [operator>>] runs its two statements, which read one token and
    assign the path built from it, and then reaches the end of its body: the
    function is declared to return the stream and has no [return] statement,
    so no call returns.  With the default, empty exception mask every call
    is undefined behaviour, for instance on the input [a/b]. *)
Theorem extract_never_returns (h : Host) (os : ostream) (ins : istream) (p : FilePath.t) :
  written (insert os p) = written os ++ toString p /\
  (forall s, extract h ins p <> Returned s) /\
  (throws_eofbit ins = false -> throws_failbit ins = false ->
   extract h ins p = UndefinedBehaviour) /\
  extract_statements Posix (istream_of (lit "a/b")) empty_path
  = Done (mk_istream [] true false false false, of_string Posix (lit "a/b")) /\
  extract Posix (istream_of (lit "a/b")) empty_path = UndefinedBehaviour.
Proof.
  split; [reflexivity|]. split; [|split; [|split; reflexivity]].
  - intros s. unfold extract. destruct (extract_statements h ins p); discriminate.
  - intros E F. unfold extract.
    destruct (extract_statements_no_mask h ins p E F) as [s ->]. reflexivity.
Qed.

(** ** The resolver *)

Lemma div_assign_nonempty (h : Host) (p q : FilePath.t) :
  3 <= List.length (path q) -> empty (div_assign h p q) = false.
Proof.
  intros L. unfold empty, div_assign, NormalizePath. cbn [path].
  pose proof (length_normalize h (div_raw h p q)) as N.
  pose proof (length_div_raw h p q) as R.
  destruct (normalize h (div_raw h p q)); [cbn in N; lia | reflexivity].
Qed.

Lemma asset_candidates_nonempty (h : Host) (env : Env) (x : FilePath.t) :
  In x (asset_candidates h env) -> empty x = false.
Proof.
  unfold asset_candidates. cbn [In].
  intros [<-|[<-|[<-|[<-|[]]]]].
  - now destruct h.
  - apply div_assign_nonempty. destruct h; vm_compute; lia.
  - apply div_assign_nonempty. destruct h; vm_compute; lia.
  - apply div_assign_nonempty. destruct h; vm_compute; lia.
Qed.

(** [probe] returns the first candidate, in list order, whose directory
    exists, and tests nothing after it. *)
Lemma probe_Some (ex : std_string -> bool) (cands : list FilePath.t)
    (p : FilePath.t) (log : list std_string) :
  probe ex cands = (Some p, log) ->
  exists before after,
    cands = before ++ p :: after /\
    (forall x, In x before -> ex (toString x) = false) /\
    ex (toString p) = true /\
    log = map toString (before ++ [p]).
Proof.
  revert log. induction cands as [|c cands IH]; intros log; [discriminate|].
  cbn [probe]. destruct (ex (toString c)) eqn:E.
  - intros [= <- <-]. exists [], cands. repeat split; easy.
  - destruct (probe ex cands) as [r l] eqn:P. intros [= -> <-].
    destruct (IH _ eq_refl) as (b & a & -> & Hb & Hp & ->).
    exists (c :: b), a. repeat split; try easy.
    intros x [<-|Hx]; auto.
Qed.

Lemma probe_None (ex : std_string -> bool) (cands : list FilePath.t) :
  (forall x, In x cands -> ex (toString x) = false) ->
  probe ex cands = (None, map toString cands).
Proof.
  induction cands as [|c cands IH]; intros H; [reflexivity|].
  cbn [probe map]. rewrite (H c (or_introl eq_refl)), IH; [reflexivity|].
  intros x Hx. apply H. now right.
Qed.

Lemma GetAssetsBasePath_cached (h : Host) (env : Env) (c : Cache) :
  assets_base c <> [] ->
  GetAssetsBasePath h env c = (FilePath.mk (assets_base c), c, []).
Proof. unfold GetAssetsBasePath. now destruct (assets_base c). Qed.

(** C6: a successful probe stores its result, and from then on every call
    returns the stored value and tests no directory, whatever the host would
    answer; when no candidate exists the empty path is returned and the
    cache is left as it was, so the next call probes again; the setter
    replaces the stored value without probing. *)
Theorem assets_base_cache (h : Host) (env : Env) (c : Cache) :
  (forall p c' log,
      GetAssetsBasePath h env c = (p, c', log) -> empty p = false ->
      assets_base c' = toString p /\
      forall env', GetAssetsBasePath h env' c' = (p, c', [])) /\
  (assets_base c = [] ->
   forall p log,
     probe (dir_exists env) (asset_candidates h env) = (Some p, log) ->
     GetAssetsBasePath h env c = (p, set_assets_base (toString p) c, log) /\
     empty p = false /\ dir_exists env (toString p) = true) /\
  (assets_base c = [] ->
   (forall x, In x (asset_candidates h env) -> dir_exists env (toString x) = false) ->
   GetAssetsBasePath h env c = (empty_path, c, map toString (asset_candidates h env))) /\
  (forall p env',
      empty p = false ->
      GetAssetsBasePath h env' (SetAssetsBasePath p c)
      = (p, SetAssetsBasePath p c, [])) /\
  (forall d, assets_base (snd (GetUserPath h env d c)) = assets_base c) /\
  GetAssetsBasePath Posix no_directories unset
  = (empty_path, unset,
     [lit "./assets/"; lit "/assets/"; lit "/../assets/"; lit "/../share/assets/"]) /\
  GetAssetsBasePath Posix only_sibling_assets unset
  = (FilePath.mk (lit "/opt/tec/bin/../assets/"),
     set_assets_base (lit "/opt/tec/bin/../assets/") unset,
     [lit "./assets/"; lit "/opt/tec/bin/assets/"; lit "/opt/tec/bin/../assets/"]) /\
  GetAssetsBasePath Posix no_directories
    (set_assets_base (lit "/opt/tec/bin/../assets/") unset)
  = (FilePath.mk (lit "/opt/tec/bin/../assets/"),
     set_assets_base (lit "/opt/tec/bin/../assets/") unset, []).
Proof.
  assert (K : forall (p : FilePath.t) (k : Cache) env',
             empty p = false -> assets_base k = toString p ->
             GetAssetsBasePath h env' k = (p, k, [])).
  { intros [s] k env' E A. unfold empty, toString in *. cbn [path] in *.
    rewrite GetAssetsBasePath_cached; rewrite A; [reflexivity|].
    intros ->. discriminate. }
  split; [|split; [|split; [|split; [|split; [|repeat split]]]]].
  - intros p c' log G E. unfold GetAssetsBasePath in G.
    destruct (str_empty (assets_base c)) eqn:S.
    + destruct (probe _ _) as [[x|] l]; injection G as <- <- <-.
      * split; [reflexivity|]. intros env'. now apply K.
      * discriminate.
    + injection G as <- <- <-. split; [reflexivity|]. intros env'. now apply K.
  - intros U p log P. unfold GetAssetsBasePath. rewrite U, P. cbn [str_empty].
    destruct (probe_Some _ _ _ _ P) as (b & a & C & _ & X & _).
    repeat split; [|exact X].
    apply (asset_candidates_nonempty h env). rewrite C. apply in_elt.
  - intros U N. unfold GetAssetsBasePath. rewrite U, (probe_None _ _ N). reflexivity.
  - intros p env' E. now apply K.
  - intros d. unfold GetUserPath.
    destruct (str_empty (cached d c)); [|reflexivity].
    destruct (user_dir_query env d); [|reflexivity]. now destruct d.
Qed.

(** * Further properties of the header's operators *)

(** ** Normal forms *)

Lemma path_inj (a b : FilePath.t) : path a = path b -> a = b.
Proof. destruct a, b. cbn. now intros ->. Qed.

Lemma normal_form_iff (h : Host) (p : FilePath.t) :
  normal_form h p <->
  well_formed h p = true /\ (h = Win32 \/ has_drive_prefix (path p) = false).
Proof.
  unfold normal_form, NormalizePath, well_formed.
  fold (native_only h (path p)). split.
  - intros E. apply (f_equal path) in E. cbn [path] in E.
    assert (N : native_only h (path p) = true)
      by (rewrite <- E; apply normalize_native_only).
    split; [exact N|]. rewrite (normalize_native h _ N) in E.
    destruct h; [right; now apply strip_drive_fixed | now left].
  - intros [N D]. apply path_inj. cbn [path]. now apply normalize_fixed.
Qed.

Lemma div_raw_junction (h : Host) (p q : FilePath.t) :
  div_raw h p q = path p ++ junction h (path p) (path q) ++ path q.
Proof.
  unfold div_raw, junction, PATH_SEPARATOR. rewrite empty_or_differs.
  destruct (path p) as [|x s]; cbn [str_empty].
  - cbn [back differs andb].
    now destruct (differs (front (path q)) (PATH_SEPARATOR_C h)).
  - now destruct (differs (back (x :: s)) (PATH_SEPARATOR_C h)),
                 (differs (front (path q)) (PATH_SEPARATOR_C h)).
Qed.

Lemma separator_not_letter (h : Host) : is_letter (PATH_SEPARATOR_C h) = false.
Proof. now destruct h. Qed.

Lemma separator_not_colon (h : Host) : Ascii.eqb (PATH_SEPARATOR_C h) ":" = false.
Proof. now destruct h. Qed.

(** Whether the joined string begins with a drive prefix is decided by the
    left operand alone. *)
Lemma has_drive_prefix_div_raw (h : Host) (p q : FilePath.t) :
  has_drive_prefix (div_raw h p q) = has_drive_prefix (path p).
Proof.
  rewrite div_raw_junction. unfold junction.
  destruct (path p) as [|a [|b s]]; [| |reflexivity].
  - cbn [back differs andb app].
    destruct (differs (front (path q)) (PATH_SEPARATOR_C h)) eqn:F.
    + cbn [app has_drive_prefix]. destruct (path q); [reflexivity|].
      now rewrite separator_not_letter.
    + apply differs_front in F as [s ->]. cbn [app has_drive_prefix].
      destruct s; [reflexivity|]. now rewrite separator_not_letter.
  - cbn [back].
    destruct (differs (Some a) (PATH_SEPARATOR_C h)) eqn:B;
      destruct (differs (front (path q)) (PATH_SEPARATOR_C h)) eqn:F;
      cbn [andb app has_drive_prefix].
    + now rewrite separator_not_colon, andb_false_r.
    + apply differs_front in F as [s ->].
      now rewrite separator_not_colon, andb_false_r.
    + apply differs_false in B. injection B as ->.
      destruct (path q); [reflexivity|]. now rewrite separator_not_letter.
    + apply differs_false in B. injection B as ->.
      destruct (path q); [reflexivity|]. now rewrite separator_not_letter.
Qed.

(** On operands in normal form the final [NormalizePath()] of [operator/=]
    changes nothing, and the result is in normal form again. *)
Lemma div_normal_form (h : Host) (p q : FilePath.t) :
  normal_form h p -> normal_form h q ->
  toString (div h p q) = div_raw h p q /\ normal_form h (div h p q).
Proof.
  intros [Wp Dp]%normal_form_iff [Wq _]%normal_form_iff.
  assert (E : normalize h (div_raw h p q) = div_raw h p q).
  { apply normalize_fixed; [now apply div_raw_native_only|].
    now rewrite has_drive_prefix_div_raw. }
  rewrite div_is_div_assign. unfold normal_form, div_assign, NormalizePath, toString.
  cbn [path]. rewrite !E. split; reflexivity.
Qed.

(** ** What append always and never does *)

Lemma In_separator_div_raw (h : Host) (p q : FilePath.t) :
  In (PATH_SEPARATOR_C h) (div_raw h p q).
Proof.
  destruct (div_raw_cases h p q) as [(_ & _ & ->)|([[s E]|[s E]] & ->)];
    rewrite ?E, !in_app_iff; cbn [In]; auto.
Qed.

Lemma In_separator_normalize (h : Host) (s : std_string) :
  In (PATH_SEPARATOR_C h) s -> In (PATH_SEPARATOR_C h) (normalize h s).
Proof.
  intros I.
  assert (R : In (PATH_SEPARATOR_C h)
                 (replace (FOREIGN_SEPARATOR_C h) (PATH_SEPARATOR_C h) s)).
  { unfold replace. apply in_map_iff. exists (PATH_SEPARATOR_C h).
    split; [now destruct h | exact I]. }
  unfold normalize. destruct h; [|exact R].
  unfold strip_drive.
  destruct (replace _ _ s) as [|a [|b rest]]; cbn [has_drive_prefix]; try exact R.
  destruct (is_letter a && Ascii.eqb b ":") eqn:D; [|exact R].
  apply andb_true_iff in D as [La Cb]. apply Ascii.eqb_eq in Cb. subst b.
  cbn [skipn]. cbn [PATH_SEPARATOR_C] in R |- *.
  destruct R as [E|[E|R]]; [subst a; discriminate La | discriminate E | exact R].
Qed.

(** X1: whatever the operands, the result of [/] and [/=] holds at least one
    native separator; in particular it is never the empty path. *)
Theorem div_contains_separator (h : Host) (p q : FilePath.t) :
  In (PATH_SEPARATOR_C h) (toString (div h p q)) /\
  In (PATH_SEPARATOR_C h) (toString (div_assign h p q)) /\
  empty (div h p q) = false.
Proof.
  assert (I : In (PATH_SEPARATOR_C h) (toString (div_assign h p q))).
  { unfold div_assign, NormalizePath, toString. cbn [path].
    apply In_separator_normalize, In_separator_div_raw. }
  rewrite div_is_div_assign. repeat split; try exact I.
  unfold empty. unfold toString in I. now destruct (path (div_assign h p q)).
Qed.

Lemma length_normalize_cases (h : Host) (s : std_string) :
  List.length (normalize h s) = List.length s \/
  (2 <= List.length s /\ List.length (normalize h s) = List.length s - 2).
Proof.
  unfold normalize, strip_drive, replace. destruct h.
  - destruct (has_drive_prefix _) eqn:D; rewrite ?length_skipn, ?length_map; [|now left].
    right. split; [|reflexivity].
    destruct s as [|a [|b s]]; cbn in D; try discriminate. cbn. lia.
  - left. apply length_map.
Qed.

(** X2: [p / q] and [p + q] are the same path exactly when one of the two
    operands supplies the separator at the junction, that is when [p] ends in
    the native separator or [q] begins with it. *)
Theorem div_eq_plus_iff (h : Host) (p q : FilePath.t) :
  div h p q = plus h p q <->
  ends_with_sep h (path p) \/ begins_with_sep h (path q).
Proof.
  rewrite div_is_div_assign, plus_is_plus_assign.
  unfold div_assign, plus_assign, NormalizePath.
  destruct (div_raw_cases h p q) as [(E & B & R)|(EB & R)]; rewrite R.
  - split; [|intros [?|?]; contradiction].
    intros Q. apply (f_equal path) in Q. cbn [path] in Q.
    apply (f_equal (@List.length ascii)) in Q. exfalso.
    pose proof (length_normalize_cases h (path p ++ [PATH_SEPARATOR_C h] ++ path q)) as L1.
    pose proof (length_normalize_cases h (path p ++ path q)) as L2.
    rewrite !length_app in *. cbn [List.length] in *. lia.
  - split; [intros _; exact EB | reflexivity].
Qed.

(** ** Associativity of append *)

Lemma junction_app_l (h : Host) (s q r : std_string) :
  q <> [] -> junction h (s ++ q) r = junction h q r.
Proof. intros N. unfold junction. now rewrite back_app_nonempty. Qed.

Lemma junction_app_r (h : Host) (l q s : std_string) :
  q <> [] -> junction h l (q ++ s) = junction h l q.
Proof. intros N. unfold junction. destruct q; [contradiction | reflexivity]. Qed.

(** X3: on operands in normal form, append is associative as soon as the
    middle operand is not empty: [(p / q) / r] and [p / (q / r)] are the same
    path. *)
Theorem div_assoc (h : Host) (p q r : FilePath.t) :
  normal_form h p -> normal_form h q -> normal_form h r ->
  path q <> [] ->
  div h (div h p q) r = div h p (div h q r).
Proof.
  intros Np Nq Nr Q.
  destruct (div_normal_form h p q Np Nq) as [Epq Npq].
  destruct (div_normal_form h q r Nq Nr) as [Eqr Nqr].
  destruct (div_normal_form h (div h p q) r Npq Nr) as [El _].
  destruct (div_normal_form h p (div h q r) Np Nqr) as [Er _].
  apply path_inj. unfold toString in *. rewrite El, Er, !div_raw_junction, Epq, Eqr.
  rewrite !div_raw_junction.
  replace (junction h (path p ++ junction h (path p) (path q) ++ path q) (path r))
    with (junction h (path q) (path r))
    by (rewrite app_assoc; symmetry; now apply junction_app_l).
  rewrite (junction_app_r h (path p) (path q) _ Q).
  now rewrite <- !app_assoc.
Qed.

Lemma div_assoc_witness :
  normal_form Posix (of_string Posix (lit "/opt")) /\
  normal_form Posix (of_string Posix (lit "tec/")) /\
  normal_form Posix (of_string Posix (lit "/assets")) /\
  div Posix (div Posix (of_string Posix (lit "/opt")) (of_string Posix (lit "tec/")))
            (of_string Posix (lit "/assets"))
  = div Posix (of_string Posix (lit "/opt"))
              (div Posix (of_string Posix (lit "tec/")) (of_string Posix (lit "/assets"))).
Proof.
  split; [reflexivity|]. split; [reflexivity|]. split; [reflexivity|].
  apply (div_assoc Posix); [reflexivity | reflexivity | reflexivity | discriminate].
Defined.

(** ** Doubled separators *)

Lemma has_doubled_app (c : ascii) (s r : std_string) :
  has_doubled c (s ++ r) =
  has_doubled c s || has_doubled c r
  || (negb (differs (back s) c) && negb (differs (front r) c)).
Proof.
  induction s as [|x [|y s] IH].
  - cbn. now rewrite orb_false_r.
  - cbn [app has_doubled front back differs]. rewrite negb_involutive.
    now destruct (Ascii.eqb x c), (has_doubled c r), (differs (front r) c).
  - change (has_doubled c ((x :: y :: s) ++ r))
      with ((Ascii.eqb x c && negb (differs (Some y) c)) || has_doubled c ((y :: s) ++ r)).
    rewrite IH.
    change (has_doubled c (x :: y :: s))
      with ((Ascii.eqb x c && negb (differs (Some y) c)) || has_doubled c (y :: s)).
    change (back (x :: y :: s)) with (back (y :: s)).
    now destruct (Ascii.eqb x c && negb (differs (Some y) c)),
                 (has_doubled c (y :: s)), (has_doubled c r).
Qed.

(** X4: on operands in normal form, [p / q] holds two adjacent native
    separators exactly when [p] does, or [q] does, or [p] ends in a separator
    and [q] begins with one; the operator itself never creates a doubled
    separator out of a bare junction. *)
Theorem div_doubled_separator_iff (h : Host) (p q : FilePath.t) :
  normal_form h p -> normal_form h q ->
  (has_doubled (PATH_SEPARATOR_C h) (toString (div h p q)) = true <->
   has_doubled (PATH_SEPARATOR_C h) (path p) = true \/
   has_doubled (PATH_SEPARATOR_C h) (path q) = true \/
   (ends_with_sep h (path p) /\ begins_with_sep h (path q))).
Proof.
  intros Np Nq. destruct (div_normal_form h p q Np Nq) as [-> _].
  rewrite div_raw_junction. unfold junction.
  rewrite <- differs_back, <- differs_front.
  destruct (differs (back (path p)) (PATH_SEPARATOR_C h)) eqn:B;
    destruct (differs (front (path q)) (PATH_SEPARATOR_C h)) eqn:F;
    cbn [andb]; rewrite !has_doubled_app, ?B, ?F; cbn [app has_doubled back front differs negb andb];
    rewrite ?Ascii.eqb_refl, ?F, ?orb_false_r; cbn [negb andb orb];
    rewrite ?orb_false_r, !orb_true_iff; intuition congruence.
Qed.

Lemma div_doubled_separator_iff_witness :
  normal_form Posix (of_string Posix (lit "a/")) /\
  normal_form Posix (of_string Posix (lit "/b")) /\
  has_doubled "/" (toString (div Posix (of_string Posix (lit "a/")) (of_string Posix (lit "/b"))))
  = true.
Proof.
  split; [reflexivity|]. split; [reflexivity|].
  apply (div_doubled_separator_iff Posix (of_string Posix (lit "a/")) (of_string Posix (lit "/b")));
    [reflexivity | reflexivity |].
  right. right. split; [now exists (lit "a") | now exists (lit "b")].
Defined.

(** Without the condition on the middle operand associativity is lost: an
    empty middle operand leaves a separator on each side of the junction. *)
Example div_assoc_needs_middle :
  toString (div Posix (div Posix (of_string Posix (lit "a/")) empty_path)
                (of_string Posix (lit "b"))) = lit "a/b" /\
  toString (div Posix (of_string Posix (lit "a/"))
                (div Posix empty_path (of_string Posix (lit "b")))) = lit "a//b".
Proof. split; reflexivity. Qed.

(** ** Associativity of concatenation *)

Lemma replace_app (a b : ascii) (s r : std_string) :
  replace a b (s ++ r) = replace a b s ++ replace a b r.
Proof. apply map_app. Qed.

Lemma replace_again (h : Host) (s : std_string) :
  replace (FOREIGN_SEPARATOR_C h) (PATH_SEPARATOR_C h)
    (replace (FOREIGN_SEPARATOR_C h) (PATH_SEPARATOR_C h) s)
  = replace (FOREIGN_SEPARATOR_C h) (PATH_SEPARATOR_C h) s.
Proof. apply replace_fixed, replace_native_only. Qed.

Lemma normalize_no_drive (h : Host) (s : std_string) :
  h = Win32 \/ has_drive_prefix s = false ->
  normalize h s = replace (FOREIGN_SEPARATOR_C h) (PATH_SEPARATOR_C h) s.
Proof.
  intros D. unfold normalize. destruct h; [|reflexivity].
  destruct D as [D|D]; [discriminate|].
  unfold strip_drive. now rewrite (has_drive_prefix_replace Posix), D.
Qed.

Lemma normalize_app_l (h : Host) (s r : std_string) :
  h = Win32 \/ has_drive_prefix s = false ->
  normalize h (normalize h s ++ r) = normalize h (s ++ r).
Proof.
  intros D. rewrite (normalize_no_drive h s D). unfold normalize.
  now rewrite !replace_app, replace_again.
Qed.

Lemma normalize_app_r (h : Host) (s r : std_string) :
  h = Win32 \/ has_drive_prefix r = false ->
  normalize h (s ++ normalize h r) = normalize h (s ++ r).
Proof.
  intros D. rewrite (normalize_no_drive h r D). unfold normalize.
  now rewrite !replace_app, replace_again.
Qed.

(** X5: concatenation is associative on a Windows host, and on a host
    without drive letters whenever neither [p + q] nor [q + r] starts with a
    drive prefix before it is normalized. *)
Theorem plus_assoc (h : Host) (p q r : FilePath.t) :
  h = Win32 \/
  (has_drive_prefix (path p ++ path q) = false /\
   has_drive_prefix (path q ++ path r) = false) ->
  plus h (plus h p q) r = plus h p (plus h q r).
Proof.
  intros D. apply path_inj.
  unfold plus, plus_assign, copy, NormalizePath. cbn [path].
  rewrite normalize_app_l, normalize_app_r, app_assoc; [reflexivity| |];
    destruct D as [D|[D1 D2]]; auto.
Qed.

Lemma plus_assoc_witness :
  plus Posix (plus Posix (of_string Posix (lit "mesh")) (of_string Posix (lit ".")))
       (of_string Posix (lit "obj"))
  = plus Posix (of_string Posix (lit "mesh"))
         (plus Posix (of_string Posix (lit ".")) (of_string Posix (lit "obj"))).
Proof.
  apply (plus_assoc Posix). right. split; reflexivity.
Defined.

(** Off Windows the condition cannot be dropped: a drive prefix that forms
    across two operands is stripped by one grouping and not by the other. *)
Example plus_assoc_needs_condition :
  toString (plus Posix (plus Posix (of_string Posix (lit "C")) (of_string Posix (lit ":D")))
                 (of_string Posix (lit ":x"))) = lit "x" /\
  toString (plus Posix (of_string Posix (lit "C"))
                 (plus Posix (of_string Posix (lit ":D")) (of_string Posix (lit ":x"))))
  = lit "D:x".
Proof. split; reflexivity. Qed.

(** ** Normal forms under the two operators *)

Lemma of_string_path (h : Host) (p : FilePath.t) :
  of_string h (path p) = NormalizePath h p.
Proof. now destruct p. Qed.

(** X10: append keeps normal forms: when [NormalizePath] changes neither
    operand it does not change [p / q] either, so building a path again from
    the string of [p / q] gives [p / q] back. *)
Theorem div_preserves_normal_form (h : Host) (p q : FilePath.t) :
  normal_form h p -> normal_form h q ->
  normal_form h (div h p q) /\
  normal_form h (div_assign h p q) /\
  of_string h (toString (div h p q)) = div h p q.
Proof.
  intros Np Nq. destruct (div_normal_form h p q Np Nq) as [_ N].
  split; [exact N|]. split; [now rewrite <- div_is_div_assign|].
  unfold toString. now rewrite of_string_path.
Qed.

Lemma div_preserves_normal_form_witness :
  normal_form Win32 (div Win32 (of_string Win32 (lit "C:\tec")) (of_string Win32 (lit "assets/"))) /\
  normal_form Win32 (div_assign Win32 (of_string Win32 (lit "C:\tec")) (of_string Win32 (lit "assets/"))) /\
  of_string Win32
    (toString (div Win32 (of_string Win32 (lit "C:\tec")) (of_string Win32 (lit "assets/"))))
  = div Win32 (of_string Win32 (lit "C:\tec")) (of_string Win32 (lit "assets/")).
Proof.
  apply (div_preserves_normal_form Win32); reflexivity.
Defined.

(** Concatenation does not: off Windows two normal forms can join into a
    string whose drive prefix hides a second one. *)
Example plus_leaves_normal_form :
  normal_form Posix (of_string Posix (lit "C")) /\
  normal_form Posix (of_string Posix (lit ":D:x")) /\
  toString (plus Posix (of_string Posix (lit "C")) (of_string Posix (lit ":D:x"))) = lit "D:x" /\
  NormalizePath Posix (plus Posix (of_string Posix (lit "C")) (of_string Posix (lit ":D:x")))
  <> plus Posix (of_string Posix (lit "C")) (of_string Posix (lit ":D:x")).
Proof. repeat split. vm_compute. discriminate. Qed.
